(** * A shallow embedding of [auto_grid] from src/src/lib.rs

    [auto_grid area n spacing] picks a grid shape from [n] with a
    floating-point square root, splits [area] vertically into [rows] bands
    with ratatui's [Layout::split], splits each band horizontally into [cols]
    cells and collects the cells in row-major order until [n] of them have
    been pushed.

    Modelling choices:
    - [Rect] fields are [u16] in the source; they are [Z] here and the
      theorems assume the input fields are non-negative.
    - [n : usize] is a [Z]; the platform is 64-bit.
    - The two [f64] computations [(n as f64).sqrt().ceil() as u16] and
      [((n as f64) / f64::from(cols)).ceil() as u16] are modelled by the
      exact integer ceiling of the square root and of the quotient, followed
      by the saturating [as u16] cast.  For [n < 2^32] the conversion of [n]
      is exact, IEEE [sqrt] and division are correctly rounded, and the exact
      real results are either integers or at distance at least [1/131072]
      from the nearest integer, far above the rounding error, so [ceil] sees
      the same integer.  For larger [n] both casts saturate at [65535] in the
      source and in the model alike.
    - The layout splitter of ratatui is an external library.  The grid code
      is stated over any splitter [split] that meets the contract the spec
      (sections 4.2, 4.3, 6 and 9) gives for it ([SplitContract]); a
      concrete splitter written from the spec's description is
      [split_model].  The spec describes the splitter only when the total
      spacing fits the extent; [split_clamped] agrees with [split_model]
      there and clamps the bands to the area beyond it. *)

From Stdlib Require Import ZArith Lia List Bool.
Import ListNotations.
Open Scope Z_scope.

(** ** Data model *)

Record Rect := mkRect { x : Z; y : Z; width : Z; height : Z }.

Inductive Direction := Horizontal | Vertical.

(** [Constraint::Ratio(num, den)]; the only constraint the code uses. *)
Inductive Constraint := Ratio (num den : Z).

Definition u16_max : Z := 65535.

(** [usize::MAX] and [isize::MAX] on a 64-bit platform. *)
Definition usize_max : Z := 2 ^ 64 - 1.
Definition isize_max : Z := 2 ^ 63 - 1.

(** [size_of::<Rect>()]: four [u16] fields. *)
Definition rect_size : Z := 8.

(** Saturating float-to-integer cast [as u16]. *)
Definition as_u16 (v : Z) : Z := Z.max 0 (Z.min v u16_max).

(** [ceil(sqrt(n))] on non-negative integers. *)
Definition ceil_sqrt (n : Z) : Z :=
  let s := Z.sqrt n in if s * s =? n then s else s + 1.

(** [ceil(a / b)] for [b > 0]. *)
Definition ceil_div (a b : Z) : Z := (a + b - 1) / b.

(** [let cols = (n as f64).sqrt().ceil() as u16;] *)
Definition grid_cols (n : Z) : Z := as_u16 (ceil_sqrt n).

(** [let rows = ((n as f64) / f64::from(cols)).ceil() as u16;] *)
Definition grid_rows (n : Z) : Z := as_u16 (ceil_div n (grid_cols n)).

(** The grid shape [(cols, rows)] chosen for [n]. *)
Definition grid_dims (n : Z) : Z * Z := (grid_cols n, grid_rows n).

(** Well-formed [u16] rectangle and spacing. *)
Definition rect_wf (r : Rect) : Prop :=
  0 <= x r /\ 0 <= y r /\ 0 <= width r /\ 0 <= height r.

(** [b] lies within [a]. *)
Definition within (b a : Rect) : Prop :=
  x a <= x b /\ y a <= y b /\
  x b + width b <= x a + width a /\ y b + height b <= y a + height a.

(** Position and extent of a rectangle along a split direction. *)
Definition pos_along (d : Direction) (r : Rect) : Z :=
  match d with Horizontal => x r | Vertical => y r end.
Definition size_along (d : Direction) (r : Rect) : Z :=
  match d with Horizontal => width r | Vertical => height r end.

(** ** The contract of the layout splitter
    [Layout::horizontal/vertical(constraints).spacing(s).split(area)]:
    one output per constraint, each inside the input, of non-negative size,
    spanning the input across the split axis, consecutive outputs ordered
    and non-overlapping along it. *)
Class SplitContract
    (split : Direction -> list Constraint -> Z -> Rect -> list Rect) : Prop := {
  split_length : forall d cs s a,
    rect_wf a -> 0 <= s -> length (split d cs s a) = length cs;
  split_within : forall d cs s a b,
    rect_wf a -> 0 <= s -> In b (split d cs s a) -> within b a /\ rect_wf b;
  split_cross : forall d cs s a b,
    rect_wf a -> 0 <= s -> In b (split d cs s a) ->
    match d with
    | Horizontal => y b = y a /\ height b = height a
    | Vertical => x b = x a /\ width b = width a
    end;
  split_ordered : forall d cs s a i b1 b2,
    rect_wf a -> 0 <= s ->
    nth_error (split d cs s a) i = Some b1 ->
    nth_error (split d cs s a) (S i) = Some b2 ->
    pos_along d b1 + size_along d b1 <= pos_along d b2
}.

(** ** The grid function, over a splitter *)
Section AutoGrid.

Variable split : Direction -> list Constraint -> Z -> Rect -> list Rect.

(** The inner loop [for &rect in col_areas.iter()]: the boolean is [true]
    when [break 'outer] was taken. *)
Fixpoint push_row (n : Z) (out : list Rect) (cells : list Rect)
    : list Rect * bool :=
  match cells with
  | [] => (out, false)
  | rect :: rest =>
      if Z.of_nat (length out) =? n then (out, true)
      else push_row n (out ++ [rect]) rest
  end.

(** The outer loop [for r in 0..rows as usize]; [None] is the panic of an
    out-of-bounds [row_areas[r]]. *)
Fixpoint rows_loop (n : Z) (row_areas : list Rect)
    (col_constraints : list Constraint) (spacing : Z)
    (rs : list nat) (out : list Rect) : option (list Rect) :=
  match rs with
  | [] => Some out
  | r :: rs' =>
      match nth_error row_areas r with
      | None => None
      | Some band =>
          let col_areas := split Horizontal col_constraints spacing band in
          let (out', brk) := push_row n out col_areas in
          if brk then Some out'
          else rows_loop n row_areas col_constraints spacing rs' out'
      end
  end.

(** [pub fn auto_grid(area: Rect, n: usize, spacing: u16) -> Vec<Rect>];
    [None] stands for a panic ([Vec::with_capacity] beyond [isize::MAX]
    bytes, or an index out of bounds). *)
Definition auto_grid (area : Rect) (n : Z) (spacing : Z) : option (list Rect) :=
  if n =? 0 then Some [] else
  let cols := grid_cols n in
  let rows := grid_rows n in
  let row_constraints := repeat (Ratio 1 rows) (Z.to_nat rows) in
  let col_constraints := repeat (Ratio 1 cols) (Z.to_nat cols) in
  let row_areas := split Vertical row_constraints spacing area in
  if rect_size * n >? isize_max then None else
  rows_loop n row_areas col_constraints spacing (seq 0 (Z.to_nat rows)) [].

End AutoGrid.

(** ** A splitter following the spec's description *)

(** Modelled from the spec: ratatui's [Layout::split] (external to the
    repository), after section 9: "divide available extent minus total
    spacing evenly among shares, distributing remainder deterministically,
    then lay out consecutive bands with spacing gaps between", with the
    remainder going to the earlier bands (section 4.2).  All constraints of
    [auto_grid] are equal shares, so only their number [k] is used.  Where
    [(k-1) * spacing] exceeds the extent [len], the spec says nothing
    beyond requiring the bands to stay within the extent; this model then
    reduces the gap to [len / (k-1)].  That cap is a choice of the model,
    not of the spec or of ratatui: it acts only where the spacing does not
    fit, and [split_clamped] below is another splitter that agrees with
    this one wherever the spacing fits. *)
Definition eff_gap (len k s : Z) : Z :=
  if k <=? 1 then s else Z.min s (len / (k - 1)).

Definition avail (len k s : Z) : Z := len - (k - 1) * eff_gap len k s.

(** Size of band [i]: the quotient, plus one for the first [A mod k] bands. *)
Definition band_size (A k i : Z) : Z :=
  A / k + (if i <? A mod k then 1 else 0).

(** Offset of band [i] from the start: sizes and gaps of the bands before. *)
Definition band_offset (A k g i : Z) : Z :=
  i * (A / k) + Z.min i (A mod k) + i * g.

Definition split_model (d : Direction) (cs : list Constraint) (s : Z)
    (a : Rect) : list Rect :=
  let k := Z.of_nat (length cs) in
  let len := size_along d a in
  let g := eff_gap len k s in
  let A := avail len k s in
  map (fun j =>
         let i := Z.of_nat j in
         let off := band_offset A k g i in
         let w := band_size A k i in
         match d with
         | Horizontal => mkRect (x a + off) (y a) w (height a)
         | Vertical => mkRect (x a) (y a + off) (width a) w
         end)
      (seq 0 (length cs)).

(** Modelled from the spec: a second reading of [Layout::split], differing
    from [split_model] only where the spacing does not fit.  The bands are
    laid out with the full spacing [s] between them, the extent left to the
    equal shares is [max 0 (len - (k-1) * s)], and each band is clamped to
    the end of the area, so that bands past the end collapse onto it. *)
Definition clamped_band (d : Direction) (k : nat) (s : Z) (a : Rect) (j : nat)
    : Rect :=
  let k := Z.of_nat k in
  let len := size_along d a in
  let A := Z.max 0 (len - (k - 1) * s) in
  let i := Z.of_nat j in
  let lo := Z.min len (band_offset A k s i) in
  let hi := Z.min len (band_offset A k s i + band_size A k i) in
  match d with
  | Horizontal => mkRect (x a + lo) (y a) (hi - lo) (height a)
  | Vertical => mkRect (x a) (y a + lo) (width a) (hi - lo)
  end.

Definition split_clamped (d : Direction) (cs : list Constraint) (s : Z)
    (a : Rect) : list Rect :=
  map (clamped_band d (length cs) s a) (seq 0 (length cs)).


(** The cells the two splitting passes generate, before truncation. *)
Definition row_constraints (n : Z) : list Constraint :=
  repeat (Ratio 1 (grid_rows n)) (Z.to_nat (grid_rows n)).
Definition col_constraints (n : Z) : list Constraint :=
  repeat (Ratio 1 (grid_cols n)) (Z.to_nat (grid_cols n)).

Definition generated_cells
    (split : Direction -> list Constraint -> Z -> Rect -> list Rect)
    (area : Rect) (n spacing : Z) : list Rect :=
  concat (map (split Horizontal (col_constraints n) spacing)
              (split Vertical (row_constraints n) spacing area)).

Definition area100 : Rect := mkRect 0 0 100 100.


Definition four_cells : list Rect :=
  [mkRect 0 0 50 50; mkRect 50 0 50 50; mkRect 0 50 50 50; mkRect 50 50 50 50].

Definition six_cells : list Rect :=
  [mkRect 0 0 34 50; mkRect 34 0 33 50; mkRect 67 0 33 50;
   mkRect 0 50 34 50; mkRect 34 50 33 50; mkRect 67 50 33 50].

(** The band [j] of [split_model]. *)
Definition model_band (d : Direction) (k : nat) (s : Z) (a : Rect) (j : nat) : Rect :=
  let k := Z.of_nat k in
  let len := size_along d a in
  let g := eff_gap len k s in
  let A := avail len k s in
  let i := Z.of_nat j in
  let off := band_offset A k g i in
  let w := band_size A k i in
  match d with
  | Horizontal => mkRect (x a + off) (y a) w (height a)
  | Vertical => mkRect (x a) (y a + off) (width a) w
  end.

(** Cells [i] and [j] of the output are on the same grid row. *)
Definition same_row (cols : Z) (i j : nat) : Prop :=
  (i / Z.to_nat cols = j / Z.to_nat cols)%nat.

Definition dflt_rect : Rect := mkRect 0 0 0 0.

(** The row-major order of the spec: consecutive cells of a row have the
    same [y]; across a row boundary [y] strictly increases. *)
Definition row_major_strict (cols : Z) (cells : list Rect) : Prop :=
  forall i, (S i < length cells)%nat ->
  (same_row cols i (S i) -> y (nth i cells dflt_rect) = y (nth (S i) cells dflt_rect)) /\
  (~ same_row cols i (S i) -> y (nth i cells dflt_rect) < y (nth (S i) cells dflt_rect)).



(** Two rectangles do not overlap (they share at most an edge). *)
Definition disjoint (r1 r2 : Rect) : Prop :=
  x r1 + width r1 <= x r2 \/ x r2 + width r2 <= x r1 \/
  y r1 + height r1 <= y r2 \/ y r2 + height r2 <= y r1.

(** * Lemmas *)

(** ** List facts *)

Lemma map_nth_seq_self {A B} (f : A -> B) (d : A) (l : list A) :
  map (fun r => f (nth r l d)) (seq 0 (length l)) = map f l.
Proof.
  induction l as [|a l IH]; [reflexivity|].
  cbn [length seq map nth]. f_equal.
  rewrite <- seq_shift, map_map. exact IH.
Qed.

Lemma length_concat_uniform {A} (ls : list (list A)) (c : nat) :
  (forall l, In l ls -> length l = c) ->
  length (concat ls) = (length ls * c)%nat.
Proof.
  induction ls as [|l ls IH]; intros Hc; [reflexivity|].
  cbn [concat length]. rewrite length_app, Hc by (left; reflexivity).
  rewrite IH by (intros; apply Hc; right; assumption). lia.
Qed.

Lemma nth_concat_uniform {A} (ls : list (list A)) (c q r : nat) (d : A) :
  (forall l, In l ls -> length l = c) -> (r < c)%nat ->
  nth (q * c + r) (concat ls) d = nth r (nth q ls []) d.
Proof.
  revert q. induction ls as [|l ls IH]; intros q Hc Hr.
  - cbn [concat]. destruct (q * c + r)%nat, q, r; reflexivity.
  - assert (Hl : length l = c) by (apply Hc; left; reflexivity).
    cbn [concat]. destruct q as [|q].
    + cbn [nth]. rewrite app_nth1 by lia. f_equal; lia.
    + rewrite app_nth2 by lia. cbn [nth].
      replace (S q * c + r - length l)%nat with (q * c + r)%nat by lia.
      apply IH; [intros; apply Hc; right|]; assumption.
Qed.

Lemma firstn_app_full {A} (N : nat) (l1 l2 : list A) :
  (N <= length l1)%nat -> firstn N (l1 ++ l2) = firstn N l1.
Proof.
  intros H. rewrite firstn_app.
  replace (N - length l1)%nat with 0%nat by lia. apply app_nil_r.
Qed.

(** ** The loops *)
Section Loops.

Variable split : Direction -> list Constraint -> Z -> Rect -> list Rect.

Lemma push_row_spec (n : Z) (cells out : list Rect) :
  0 <= n -> (length out <= Z.to_nat n)%nat ->
  let '(out', brk) := push_row n out cells in
  (brk = false -> out' = out ++ cells /\ (length out' <= Z.to_nat n)%nat) /\
  (brk = true -> out' = firstn (Z.to_nat n) (out ++ cells) /\
                 length out' = Z.to_nat n).
Proof.
  intros Hn. revert out.
  induction cells as [|c cells IH]; intros out Hout; cbn [push_row].
  - rewrite app_nil_r. split; [auto|discriminate].
  - destruct (Z.eqb_spec (Z.of_nat (length out)) n) as [E|E].
    + split; [discriminate|intros _].
      assert (length out = Z.to_nat n) by lia.
      split; [|assumption].
      rewrite firstn_app_full by lia. symmetry. apply firstn_all2. lia.
    + specialize (IH (out ++ [c])).
      rewrite length_app in IH. cbn [length] in IH.
      destruct (push_row n (out ++ [c]) cells) as [out' brk].
      rewrite <- app_assoc in IH. apply IH. lia.
Qed.

Lemma rows_loop_spec (n : Z) (RA : list Rect) (cc : list Constraint) (s : Z)
    (rs : list nat) (out : list Rect) :
  0 <= n -> (length out <= Z.to_nat n)%nat ->
  (forall r, In r rs -> (r < length RA)%nat) ->
  rows_loop split n RA cc s rs out =
  Some (firstn (Z.to_nat n)
          (out ++ concat (map (fun r => split Horizontal cc s
                                          (nth r RA (mkRect 0 0 0 0))) rs))).
Proof.
  intros Hn. revert out.
  induction rs as [|r rs IH]; intros out Hout Hrs; cbn [rows_loop].
  - rewrite app_nil_r. f_equal. symmetry. apply firstn_all2. assumption.
  - rewrite (nth_error_nth' RA (mkRect 0 0 0 0))
      by (apply Hrs; left; reflexivity).
    pose proof (push_row_spec n
      (split Horizontal cc s (nth r RA (mkRect 0 0 0 0))) out Hn Hout) as P.
    destruct (push_row n out _) as [out' brk].
    cbn [map concat]. rewrite app_assoc.
    destruct brk.
    + destruct (proj2 P eq_refl) as [E L]. f_equal.
      rewrite firstn_app_full; [exact E|].
      rewrite <- L, E, length_firstn. lia.
    + destruct (proj1 P eq_refl) as [E L]. subst out'.
      apply IH; [exact L|]. intros; apply Hrs; right; assumption.
Qed.

End Loops.


(** ** Grid dimensions *)

Lemma ceil_sqrt_spec (n : Z) :
  1 <= n ->
  (ceil_sqrt n - 1) * (ceil_sqrt n - 1) < n <= ceil_sqrt n * ceil_sqrt n.
Proof.
  intros Hn. unfold ceil_sqrt.
  pose proof (Z.sqrt_spec n ltac:(lia)) as [L U].
  pose proof (Z.sqrt_nonneg n).
  destruct (Z.eqb_spec (Z.sqrt n * Z.sqrt n) n) as [E|E].
  - assert (1 <= Z.sqrt n) by nia. nia.
  - lia.
Qed.

Lemma ceil_sqrt_pos (n : Z) : 1 <= n -> 1 <= ceil_sqrt n.
Proof. intros Hn. pose proof (ceil_sqrt_spec n Hn). nia. Qed.

Lemma ceil_sqrt_le (n : Z) :
  1 <= n <= u16_max * u16_max -> ceil_sqrt n <= u16_max.
Proof.
  intros Hn. unfold ceil_sqrt, u16_max in *.
  assert (Hs : Z.sqrt n <= 65535).
  { rewrite <- (Z.sqrt_square 65535) by lia. apply Z.sqrt_le_mono. lia. }
  pose proof (Z.sqrt_spec n ltac:(lia)) as [L U].
  destruct (Z.eqb_spec (Z.sqrt n * Z.sqrt n) n) as [E|E]; [lia|].
  destruct (Z.eq_dec (Z.sqrt n) 65535) as [E'|E']; [|lia].
  rewrite E' in L, E. lia.
Qed.

Lemma ceil_div_spec (a b : Z) :
  0 < b -> b * (ceil_div a b - 1) < a <= b * ceil_div a b.
Proof.
  intros Hb. unfold ceil_div.
  pose proof (Z.div_mod (a + b - 1) b ltac:(lia)).
  pose proof (Z.mod_pos_bound (a + b - 1) b Hb). nia.
Qed.

Lemma as_u16_id (v : Z) : 0 <= v <= u16_max -> as_u16 v = v.
Proof. unfold as_u16. lia. Qed.

Lemma grid_cols_bounds (n : Z) : 1 <= n -> 1 <= grid_cols n <= u16_max.
Proof.
  intros Hn. pose proof (ceil_sqrt_pos n Hn).
  unfold grid_cols, as_u16, u16_max in *. lia.
Qed.

Lemma grid_rows_bounds (n : Z) : 1 <= n -> 1 <= grid_rows n <= u16_max.
Proof.
  intros Hn. pose proof (grid_cols_bounds n Hn).
  pose proof (ceil_div_spec n (grid_cols n) ltac:(lia)).
  assert (1 <= ceil_div n (grid_cols n)) by nia.
  unfold grid_rows, as_u16, u16_max in *. lia.
Qed.

Lemma grid_cols_in_range (n : Z) :
  1 <= n <= u16_max * u16_max -> grid_cols n = ceil_sqrt n.
Proof.
  intros Hn. unfold grid_cols. apply as_u16_id.
  pose proof (ceil_sqrt_pos n ltac:(lia)). pose proof (ceil_sqrt_le n Hn). lia.
Qed.

Lemma grid_rows_in_range (n : Z) :
  1 <= n <= u16_max * u16_max ->
  grid_rows n = ceil_div n (ceil_sqrt n) /\ ceil_div n (ceil_sqrt n) <= ceil_sqrt n.
Proof.
  intros Hn. pose proof (ceil_sqrt_spec n ltac:(lia)).
  pose proof (ceil_sqrt_pos n ltac:(lia)). pose proof (ceil_sqrt_le n Hn).
  pose proof (ceil_div_spec n (ceil_sqrt n) ltac:(lia)).
  assert (ceil_div n (ceil_sqrt n) <= ceil_sqrt n) by nia.
  assert (1 <= ceil_div n (ceil_sqrt n)) by nia.
  split; [|assumption].
  unfold grid_rows. rewrite grid_cols_in_range by assumption.
  apply as_u16_id. lia.
Qed.

Lemma grid_covers (n : Z) :
  1 <= n <= u16_max * u16_max -> n <= grid_cols n * grid_rows n.
Proof.
  intros Hn. rewrite (proj1 (grid_rows_in_range n Hn)), grid_cols_in_range by assumption.
  pose proof (ceil_sqrt_pos n ltac:(lia)).
  apply (ceil_div_spec n (ceil_sqrt n)). lia.
Qed.

(** ** [auto_grid] over a splitter that meets the contract *)
Section Contract.

Variable split : Direction -> list Constraint -> Z -> Rect -> list Rect.
Context `{SplitContract split}.

Lemma row_areas_length (a : Rect) (n s : Z) :
  rect_wf a -> 0 <= s ->
  length (split Vertical (row_constraints n) s a) = Z.to_nat (grid_rows n).
Proof.
  intros Ha Hs. rewrite split_length by assumption.
  unfold row_constraints. apply repeat_length.
Qed.

Lemma row_area_wf (a : Rect) (n s : Z) (band : Rect) :
  rect_wf a -> 0 <= s -> In band (split Vertical (row_constraints n) s a) ->
  rect_wf band.
Proof. intros Ha Hs Hin. apply (split_within _ _ _ _ _ Ha Hs Hin). Qed.

Lemma generated_cells_length (a : Rect) (n s : Z) :
  rect_wf a -> 0 <= s ->
  length (generated_cells split a n s) =
  (Z.to_nat (grid_rows n) * Z.to_nat (grid_cols n))%nat.
Proof.
  intros Ha Hs. unfold generated_cells.
  rewrite (length_concat_uniform _ (Z.to_nat (grid_cols n))).
  - rewrite length_map, row_areas_length by assumption. reflexivity.
  - intros l Hl. apply in_map_iff in Hl as [band [<- Hb]].
    rewrite split_length by (eauto using row_area_wf).
    unfold col_constraints. apply repeat_length.
Qed.

Lemma auto_grid_cells (a : Rect) (n s : Z) :
  rect_wf a -> 0 <= s -> 1 <= n -> rect_size * n <= isize_max ->
  auto_grid split a n s =
  Some (firstn (Z.to_nat n) (generated_cells split a n s)).
Proof.
  intros Ha Hs Hn Hcap. unfold auto_grid.
  replace (n =? 0) with false by lia.
  replace (rect_size * n >? isize_max) with false by lia.
  change (repeat (Ratio 1 (grid_rows n)) (Z.to_nat (grid_rows n)))
    with (row_constraints n).
  change (repeat (Ratio 1 (grid_cols n)) (Z.to_nat (grid_cols n)))
    with (col_constraints n).
  rewrite rows_loop_spec by
    (try lia; cbn [length]; try lia;
     intros r Hr; apply in_seq in Hr; rewrite row_areas_length by assumption; lia).
  cbn [app]. unfold generated_cells.
  rewrite <- (row_areas_length a n s) by assumption.
  rewrite (map_nth_seq_self (split Horizontal (col_constraints n) s)).
  reflexivity.
Qed.

End Contract.

Lemma nth_generated_cells
    (split : Direction -> list Constraint -> Z -> Rect -> list Rect)
    `{SplitContract split} (a : Rect) (n s : Z) (q r : nat) (d : Rect) :
  rect_wf a -> 0 <= s ->
  (q < Z.to_nat (grid_rows n))%nat -> (r < Z.to_nat (grid_cols n))%nat ->
  nth (q * Z.to_nat (grid_cols n) + r) (generated_cells split a n s) d =
  nth r (split Horizontal (col_constraints n) s
           (nth q (split Vertical (row_constraints n) s a) d)) d.
Proof.
  intros Ha Hs Hq Hr. unfold generated_cells.
  rewrite nth_concat_uniform; [|intros l Hl|assumption].
  - rewrite (nth_indep _ [] (split Horizontal (col_constraints n) s d))
      by (rewrite length_map, row_areas_length by assumption; exact Hq).
    rewrite map_nth. reflexivity.
  - apply in_map_iff in Hl as [band [<- Hb]].
    rewrite split_length by (eauto using row_area_wf).
    unfold col_constraints. apply repeat_length.
Qed.

(** ** The splitter of the spec *)

Lemma eff_gap_bounds (len k s : Z) :
  0 <= len -> 0 <= s -> 1 <= k ->
  0 <= eff_gap len k s /\ (k - 1) * eff_gap len k s <= len.
Proof.
  intros Hl Hs Hk. unfold eff_gap.
  destruct (Z.leb_spec k 1) as [E|E]; [nia|].
  pose proof (Z.div_pos len (k - 1) Hl ltac:(lia)).
  pose proof (Z.mul_div_le len (k - 1) ltac:(lia)). nia.
Qed.

Lemma avail_nonneg (len k s : Z) :
  0 <= len -> 0 <= s -> 1 <= k -> 0 <= avail len k s.
Proof. intros. pose proof (eff_gap_bounds len k s). unfold avail. lia. Qed.

Lemma band_size_bounds (A k i : Z) :
  0 <= A -> 1 <= k -> 0 <= band_size A k i.
Proof.
  intros HA Hk. unfold band_size.
  pose proof (Z.div_pos A k HA ltac:(lia)). destruct (i <? A mod k); lia.
Qed.

Lemma band_offset_next (A k g i : Z) :
  band_offset A k g (i + 1) = band_offset A k g i + band_size A k i + g.
Proof.
  unfold band_offset, band_size.
  destruct (Z.ltb_spec i (A mod k)); lia.
Qed.

Lemma band_offset_nonneg (A k g i : Z) :
  0 <= A -> 1 <= k -> 0 <= g -> 0 <= i -> 0 <= band_offset A k g i.
Proof.
  intros HA Hk Hg Hi. unfold band_offset.
  pose proof (Z.div_pos A k HA ltac:(lia)).
  pose proof (Z.mod_pos_bound A k ltac:(lia)). nia.
Qed.

Lemma band_end_le (A k g i : Z) :
  0 <= A -> 1 <= k -> 0 <= g -> 0 <= i < k ->
  band_offset A k g i + band_size A k i <= A + (k - 1) * g.
Proof.
  intros HA Hk Hg Hi.
  assert (E : band_offset A k g i + band_size A k i =
              band_offset A k g (i + 1) - g) by (rewrite band_offset_next; lia).
  rewrite E. unfold band_offset.
  pose proof (Z.div_mod A k ltac:(lia)).
  pose proof (Z.div_pos A k HA ltac:(lia)).
  pose proof (Z.mod_pos_bound A k ltac:(lia)). nia.
Qed.

Lemma split_model_eq d cs s a :
  split_model d cs s a = map (model_band d (length cs) s a) (seq 0 (length cs)).
Proof. reflexivity. Qed.

Lemma nth_error_split_model d cs s a j :
  (j < length cs)%nat ->
  nth_error (split_model d cs s a) j = Some (model_band d (length cs) s a j).
Proof.
  intros Hj. rewrite split_model_eq, nth_error_map, nth_error_seq.
  destruct (Nat.ltb_spec j (length cs)); [reflexivity|lia].
Qed.

Lemma nth_split_model d cs s a j dflt :
  (j < length cs)%nat ->
  nth j (split_model d cs s a) dflt = model_band d (length cs) s a j.
Proof.
  intros Hj. apply nth_error_nth. apply nth_error_split_model. exact Hj.
Qed.

Lemma nth_error_split_model_None d cs s a j :
  (length cs <= j)%nat -> nth_error (split_model d cs s a) j = None.
Proof.
  intros Hj. rewrite split_model_eq, nth_error_map, nth_error_seq.
  destruct (Nat.ltb_spec j (length cs)); [lia|reflexivity].
Qed.

#[export] Instance split_model_contract : SplitContract split_model.
Proof.
  constructor.
  - intros. rewrite split_model_eq, length_map. apply length_seq.
  - intros d cs s a b Ha Hs Hin.
    rewrite split_model_eq in Hin.
    apply in_map_iff in Hin as [j [<- Hj]]. apply in_seq in Hj.
    unfold model_band, rect_wf, within in *.
    set (k := Z.of_nat (length cs)).
    set (len := size_along d a).
    assert (Hlen : 0 <= len) by (subst len; destruct d; cbn; lia).
    pose proof (eff_gap_bounds len k s Hlen Hs ltac:(lia)) as [G1 G2].
    pose proof (avail_nonneg len k s Hlen Hs ltac:(lia)) as HA.
    pose proof (band_size_bounds (avail len k s) k (Z.of_nat j) HA ltac:(lia)).
    pose proof (band_offset_nonneg (avail len k s) k (eff_gap len k s)
                  (Z.of_nat j) HA ltac:(lia) G1 ltac:(lia)).
    pose proof (band_end_le (avail len k s) k (eff_gap len k s)
                  (Z.of_nat j) HA ltac:(lia) G1 ltac:(lia)).
    unfold avail in *.
    destruct d; cbn [x y width height size_along] in *; lia.
  - intros d cs s a b Ha Hs Hin.
    rewrite split_model_eq in Hin.
    apply in_map_iff in Hin as [j [<- Hj]].
    destruct d; cbn; auto.
  - intros d cs s a i b1 b2 Ha Hs H1 H2.
    destruct (Nat.ltb_spec (S i) (length cs)) as [Hi|Hi];
      [|rewrite nth_error_split_model_None in H2 by lia; discriminate].
    rewrite nth_error_split_model in H1, H2 by lia.
    injection H1 as <-. injection H2 as <-.
    unfold model_band, rect_wf in *.
    rewrite Nat2Z.inj_succ, <- Z.add_1_r, band_offset_next.
    set (k := Z.of_nat (length cs)).
    destruct d; cbn [pos_along size_along x y width height].
    + pose proof (eff_gap_bounds (width a) k s ltac:(lia) Hs ltac:(lia)). lia.
    + pose proof (eff_gap_bounds (height a) k s ltac:(lia) Hs ltac:(lia)). lia.
Qed.

(** ** The clamping splitter *)




#[export] Instance split_clamped_contract : SplitContract split_clamped.
Proof.
  constructor.
  - intros. unfold split_clamped. rewrite length_map. apply length_seq.
  - intros d cs s a b Ha Hs Hin.
    unfold split_clamped in Hin.
    apply in_map_iff in Hin as [j [<- Hj]]. apply in_seq in Hj.
    unfold clamped_band, rect_wf, within in *.
    set (k := Z.of_nat (length cs)).
    set (len := size_along d a).
    assert (Hlen : 0 <= len) by (subst len; destruct d; cbn; lia).
    set (A := Z.max 0 (len - (k - 1) * s)).
    assert (HA : 0 <= A) by (subst A; lia).
    pose proof (band_size_bounds A k (Z.of_nat j) HA ltac:(lia)).
    pose proof (band_offset_nonneg A k s (Z.of_nat j) HA ltac:(lia) Hs ltac:(lia)).
    destruct d; cbn [x y width height size_along] in *; lia.
  - intros d cs s a b Ha Hs Hin.
    unfold split_clamped in Hin.
    apply in_map_iff in Hin as [j [<- Hj]].
    destruct d; cbn; auto.
  - intros d cs s a i b1 b2 Ha Hs H1 H2.
    unfold split_clamped in H1, H2.
    rewrite nth_error_map, nth_error_seq in H1, H2.
    destruct (Nat.ltb_spec (S i) (length cs)) as [Hi|Hi]; [|discriminate].
    destruct (Nat.ltb_spec i (length cs)) as [Hi'|Hi']; [|lia].
    cbn in H1, H2. injection H1 as <-. injection H2 as <-.
    unfold clamped_band.
    rewrite Nat2Z.inj_succ, <- Z.add_1_r, band_offset_next.
    destruct d; cbn [pos_along size_along x y width height]; lia.
Qed.

Section Agree.

Variables split1 split2 : Direction -> list Constraint -> Z -> Rect -> list Rect.


End Agree.


Lemma in_firstn {A} (k : nat) (l : list A) (v : A) : In v (firstn k l) -> In v l.
Proof.
  intros Hv. rewrite <- (firstn_skipn k l). apply in_or_app. left. exact Hv.
Qed.

Lemma within_trans (c b a : Rect) : within c b -> within b a -> within c a.
Proof. unfold within. lia. Qed.

Lemma auto_grid_cap_panics
    (split : Direction -> list Constraint -> Z -> Rect -> list Rect)
    (a : Rect) (n s : Z) :
  1 <= n -> isize_max < rect_size * n -> auto_grid split a n s = None.
Proof.
  intros Hn Hcap. unfold auto_grid.
  replace (n =? 0) with false by lia.
  replace (rect_size * n >? isize_max) with true by lia. reflexivity.
Qed.

Lemma u16_grid_fits_capacity (n : Z) :
  n <= u16_max * u16_max -> rect_size * n <= isize_max.
Proof. unfold u16_max, rect_size, isize_max. lia. Qed.

Lemma auto_grid_zero
    (split : Direction -> list Constraint -> Z -> Rect -> list Rect)
    (a : Rect) (s : Z) : auto_grid split a 0 s = Some [].
Proof. reflexivity. Qed.

Lemma split_model_single (d : Direction) (c : Constraint) (s : Z) (a : Rect) :
  split_model d [c] s a = [a].
Proof.
  unfold split_model, model_band. cbn [length seq map Z.of_nat].
  unfold band_offset, band_size, avail, eff_gap. cbn [Z.leb Z.compare].
  rewrite !Z.div_1_r, !Z.mod_1_r. cbn [Z.ltb Z.compare Z.min].
  destruct a as [ax ay aw ah], d; cbn; f_equal; f_equal; lia.
Qed.

Lemma succ_div_mod (C i : nat) :
  (1 <= C)%nat ->
  ((S i / C = i / C /\ S i mod C = S (i mod C) /\ S (i mod C) < C) \/
   (S i / C = S (i / C) /\ S i mod C = 0 /\ S (i mod C) = C))%nat.
Proof.
  intros HC.
  pose proof (Nat.div_mod_eq i C) as E.
  pose proof (Nat.mod_upper_bound i C ltac:(lia)) as B.
  destruct (Nat.ltb_spec (S (i mod C)) C) as [L|L].
  - left. split; [|split; [|exact L]].
    + symmetry. apply (Nat.div_unique _ _ _ (S (i mod C))); lia.
    + symmetry. apply (Nat.mod_unique _ _ (i / C)); lia.
  - right. split; [|split; [|lia]].
    + symmetry. apply (Nat.div_unique _ _ _ 0); lia.
    + symmetry. apply (Nat.mod_unique _ _ (S (i / C))); lia.
Qed.

Section Cells.

Variable split : Direction -> list Constraint -> Z -> Rect -> list Rect.
Context `{SplitContract split}.

(** Cell [i] of the output is cell [i mod cols] of row band [i / cols]. *)
Lemma auto_grid_nth (a : Rect) (n s : Z) (cells : list Rect) (i : nat) :
  rect_wf a -> 0 <= s -> 0 <= n -> auto_grid split a n s = Some cells ->
  (i < length cells)%nat ->
  (1 <= Z.to_nat (grid_cols n))%nat /\
  (i / Z.to_nat (grid_cols n) < Z.to_nat (grid_rows n))%nat /\
  (i mod Z.to_nat (grid_cols n) < Z.to_nat (grid_cols n))%nat /\
  (i < Z.to_nat n)%nat /\
  nth i cells dflt_rect =
  nth (i mod Z.to_nat (grid_cols n))
    (split Horizontal (col_constraints n) s
       (nth (i / Z.to_nat (grid_cols n))
          (split Vertical (row_constraints n) s a) dflt_rect)) dflt_rect.
Proof.
  intros Ha Hs Hn0 E Hi.
  destruct (Z.eq_dec n 0) as [->|Hn].
  { rewrite auto_grid_zero in E. injection E as <-. cbn in Hi. lia. }
  destruct (Z.leb_spec (rect_size * n) isize_max) as [Hcap|Hcap];
    [|rewrite auto_grid_cap_panics in E by lia; discriminate].
  rewrite auto_grid_cells in E by (try assumption; lia). injection E as <-.
  rewrite length_firstn, generated_cells_length in Hi by assumption.
  pose proof (grid_cols_bounds n ltac:(lia)).
  set (C := Z.to_nat (grid_cols n)) in *.
  set (R := Z.to_nat (grid_rows n)) in *.
  assert (HC : (1 <= C)%nat) by lia.
  pose proof (Nat.div_mod_eq i C) as Ei.
  pose proof (Nat.mod_upper_bound i C ltac:(lia)) as B.
  assert (Hq : (i / C < R)%nat) by nia.
  split; [exact HC|]. split; [exact Hq|]. split; [exact B|]. split; [lia|].
  rewrite nth_firstn. destruct (Nat.ltb_spec i (Z.to_nat n)) as [_|]; [|lia].
  rewrite Ei at 1. rewrite Nat.mul_comm.
  apply nth_generated_cells; assumption.
Qed.

Lemma auto_grid_cell_in_band (a : Rect) (n s : Z) (cells : list Rect) (i : nat) :
  rect_wf a -> 0 <= s -> 0 <= n -> auto_grid split a n s = Some cells ->
  (i < length cells)%nat ->
  let band := nth (i / Z.to_nat (grid_cols n))
                (split Vertical (row_constraints n) s a) dflt_rect in
  rect_wf band /\
  nth_error (split Vertical (row_constraints n) s a) (i / Z.to_nat (grid_cols n))
    = Some band /\
  y (nth i cells dflt_rect) = y band /\
  height (nth i cells dflt_rect) = height band.
Proof.
  intros Ha Hs Hn E Hi band.
  destruct (auto_grid_nth a n s cells i Ha Hs Hn E Hi) as (HC & Hq & Hr & _ & Ec).
  assert (Hb : In band (split Vertical (row_constraints n) s a)).
  { apply nth_In. rewrite row_areas_length by assumption. exact Hq. }
  assert (Wb : rect_wf band) by exact (row_area_wf split a n s band Ha Hs Hb).
  split; [exact Wb|]. split.
  { apply nth_error_nth'. rewrite row_areas_length by assumption. exact Hq. }
  rewrite Ec. fold band.
  apply (split_cross Horizontal (col_constraints n) s band); [exact Wb|exact Hs|].
  apply nth_In. rewrite split_length by assumption.
  unfold col_constraints. rewrite repeat_length. exact Hr.
Qed.

End Cells.

Lemma auto_grid_length_eq
    (split : Direction -> list Constraint -> Z -> Rect -> list Rect)
    `{SplitContract split} (a : Rect) (n s : Z) (cells : list Rect) :
  rect_wf a -> 0 <= s -> 0 <= n -> auto_grid split a n s = Some cells ->
  length cells =
  Nat.min (Z.to_nat n) (Z.to_nat (grid_rows n) * Z.to_nat (grid_cols n)).
Proof.
  intros Ha Hs Hn E.
  destruct (Z.eq_dec n 0) as [->|Hn0].
  { rewrite auto_grid_zero in E. injection E as <-. reflexivity. }
  destruct (Z.leb_spec (rect_size * n) isize_max) as [Hcap|Hcap];
    [|rewrite auto_grid_cap_panics in E by lia; discriminate].
  rewrite auto_grid_cells in E by (try assumption; lia). injection E as <-.
  rewrite length_firstn, generated_cells_length by assumption. reflexivity.
Qed.

(** ** Cells of the spec's splitter *)





(** Cell [i] of [auto_grid] with the spec's splitter, in closed form. *)
Lemma auto_grid_model_cell (a : Rect) (n s : Z) (cells : list Rect) (i : nat) :
  rect_wf a -> 0 <= s -> 0 <= n -> auto_grid split_model a n s = Some cells ->
  (i < length cells)%nat ->
  let C := Z.to_nat (grid_cols n) in
  let R := Z.to_nat (grid_rows n) in
  let kc := Z.of_nat C in
  let kr := Z.of_nat R in
  let q := Z.of_nat (i / C) in
  let r := Z.of_nat (i mod C) in
  let c := nth i cells dflt_rect in
  (1 <= C)%nat /\ (i / C < R)%nat /\ (i mod C < C)%nat /\
  x c = x a + band_offset (avail (width a) kc s) kc (eff_gap (width a) kc s) r /\
  width c = band_size (avail (width a) kc s) kc r /\
  y c = y a + band_offset (avail (height a) kr s) kr (eff_gap (height a) kr s) q /\
  height c = band_size (avail (height a) kr s) kr q.
Proof.
  intros Ha Hs Hn E Hi C R kc kr q r c.
  destruct (auto_grid_nth split_model a n s cells i Ha Hs Hn E Hi)
    as (HC & Hq & Hr & _ & Ec).
  split; [exact HC|]. split; [exact Hq|]. split; [exact Hr|].
  unfold c. rewrite Ec.
  rewrite (nth_split_model Vertical) by (unfold row_constraints; rewrite repeat_length; exact Hq).
  rewrite (nth_split_model Horizontal) by (unfold col_constraints; rewrite repeat_length; exact Hr).
  unfold col_constraints, row_constraints. rewrite !repeat_length.
  fold C R kc kr q r.
  unfold model_band. cbn [x y width height size_along].
  repeat split; reflexivity.
Qed.



Lemma grid_saturated (n : Z) :
  u16_max * u16_max < n -> grid_cols n = u16_max /\ grid_rows n = u16_max.
Proof.
  intros Hn. pose proof (ceil_sqrt_spec n ltac:(unfold u16_max in *; lia)).
  assert (Hc : grid_cols n = u16_max).
  { unfold grid_cols, as_u16. unfold u16_max in *.
    assert (65535 < ceil_sqrt n) by nia. lia. }
  split; [exact Hc|].
  unfold grid_rows. rewrite Hc.
  pose proof (ceil_div_spec n u16_max ltac:(unfold u16_max; lia)).
  unfold as_u16. unfold u16_max in *.
  assert (65535 < ceil_div n 65535) by nia. lia.
Qed.

Lemma auto_grid_length_sat
    (split : Direction -> list Constraint -> Z -> Rect -> list Rect)
    `{SplitContract split} (a : Rect) (n s : Z) (cells : list Rect) :
  rect_wf a -> 0 <= s -> u16_max * u16_max < n -> rect_size * n <= isize_max ->
  auto_grid split a n s = Some cells ->
  Z.of_nat (length cells) = u16_max * u16_max.
Proof.
  intros Ha Hs Hn Hcap E.
  rewrite auto_grid_cells in E by (unfold u16_max in *; lia || assumption).
  injection E as <-.
  rewrite length_firstn, generated_cells_length by assumption.
  destruct (grid_saturated n Hn) as [-> ->].
  unfold u16_max in *. lia.
Qed.

Lemma split_ordered_lt
    (split : Direction -> list Constraint -> Z -> Rect -> list Rect)
    `{SplitContract split} (d : Direction) (cs : list Constraint) (s : Z)
    (a : Rect) (i j : nat) :
  rect_wf a -> 0 <= s -> (i < j)%nat -> (j < length (split d cs s a))%nat ->
  pos_along d (nth i (split d cs s a) dflt_rect) +
  size_along d (nth i (split d cs s a) dflt_rect) <=
  pos_along d (nth j (split d cs s a) dflt_rect).
Proof.
  intros Ha Hs Hij Hj.
  induction j as [|j IH]; [lia|].
  assert (Ord : pos_along d (nth j (split d cs s a) dflt_rect) +
                size_along d (nth j (split d cs s a) dflt_rect) <=
                pos_along d (nth (S j) (split d cs s a) dflt_rect)).
  { apply (split_ordered d cs s a j); try assumption;
      apply nth_error_nth'; lia. }
  destruct (Nat.eq_dec i j) as [->|Hne]; [exact Ord|].
  assert (Wj : rect_wf (nth j (split d cs s a) dflt_rect)).
  { apply (split_within d cs s a); [assumption|assumption|apply nth_In; lia]. }
  unfold rect_wf in Wj.
  specialize (IH ltac:(lia) ltac:(lia)).
  destruct d; cbn [pos_along size_along] in *; lia.
Qed.

(** Two output cells [i < j]: on one row the first ends before the second
    starts; on different rows the first row ends above the second. *)
Lemma auto_grid_cells_order_aux
    (split : Direction -> list Constraint -> Z -> Rect -> list Rect)
    `{SplitContract split} (a : Rect) (n s : Z) (cells : list Rect) (i j : nat) :
  rect_wf a -> 0 <= s -> 0 <= n -> auto_grid split a n s = Some cells ->
  (i < j)%nat -> (j < length cells)%nat ->
  (same_row (grid_cols n) i j ->
     x (nth i cells dflt_rect) + width (nth i cells dflt_rect) <=
     x (nth j cells dflt_rect)) /\
  (~ same_row (grid_cols n) i j ->
     y (nth i cells dflt_rect) + height (nth i cells dflt_rect) <=
     y (nth j cells dflt_rect)).
Proof.
  intros Ha Hs Hn E Hij Hj.
  destruct (auto_grid_nth split a n s cells i Ha Hs Hn E ltac:(lia))
    as (HC & Hqi & Hri & _ & Ei).
  destruct (auto_grid_nth split a n s cells j Ha Hs Hn E Hj)
    as (_ & Hqj & Hrj & _ & Ej).
  destruct (auto_grid_cell_in_band split a n s cells i Ha Hs Hn E ltac:(lia))
    as (W1 & N1 & Y1 & H1).
  destruct (auto_grid_cell_in_band split a n s cells j Ha Hs Hn E Hj)
    as (W2 & N2 & Y2 & H2).
  set (C := Z.to_nat (grid_cols n)) in *.
  pose proof (Nat.div_mod_eq i C) as Di.
  pose proof (Nat.div_mod_eq j C) as Dj.
  unfold same_row. fold C.
  split.
  - intros Hrow. rewrite Ei, Ej, <- Hrow.
    set (band := nth (i / C) (split Vertical (row_constraints n) s a) dflt_rect).
    assert (Hlen : length (split Horizontal (col_constraints n) s band) = C).
    { rewrite split_length by assumption.
      unfold col_constraints. apply repeat_length. }
    apply (split_ordered_lt split Horizontal (col_constraints n) s band);
      [assumption|assumption|nia|lia].
  - intros Hrow. rewrite Y1, H1, Y2.
    assert (Hq : (i / C < j / C)%nat).
    { assert (i / C <= j / C)%nat by (apply Nat.Div0.div_le_mono; lia). lia. }
    pose proof (split_ordered_lt split Vertical (row_constraints n) s a
                  (i / C) (j / C) Ha Hs Hq
                  ltac:(rewrite row_areas_length by assumption; exact Hqj)) as O.
    exact O.
Qed.


(** * The claims *)

(** C1 (amended): for a well-formed area, a spacing and a count [n] with
    [0 <= n <= 65535 * 65535] (the counts whose [ceil(sqrt n)] fits the
    [u16] column count), [auto_grid] returns exactly [n] rectangles, and
    none exactly when [n = 0]. *)
Theorem auto_grid_length
    (split : Direction -> list Constraint -> Z -> Rect -> list Rect)
    `{SplitContract split} (a : Rect) (n s : Z) :
  rect_wf a -> 0 <= s -> 0 <= n <= u16_max * u16_max ->
  exists cells, auto_grid split a n s = Some cells /\
    Z.of_nat (length cells) = n /\ (cells = [] <-> n = 0).
Proof.
  intros Ha Hs Hn.
  destruct (Z.eq_dec n 0) as [->|Hn0].
  - exists []. split; [apply auto_grid_zero|]. split; [reflexivity|tauto].
  - eexists. split.
    + apply auto_grid_cells; try assumption; [lia|].
      apply u16_grid_fits_capacity. lia.
    + pose proof (grid_covers n ltac:(lia)).
      pose proof (grid_cols_bounds n ltac:(lia)).
      pose proof (grid_rows_bounds n ltac:(lia)).
      assert (L : Z.of_nat (length (firstn (Z.to_nat n)
                    (generated_cells split a n s))) = n).
      { rewrite length_firstn, generated_cells_length by assumption. nia. }
      split; [exact L|].
      split; [intros E; rewrite E in L; cbn in L; lia|lia].
Qed.

(** C1 counterexample: for [n = 65535 * 65535 + 1] both [u16] casts
    saturate at [65535], the grid has [65535 * 65535 < n] cells and
    [auto_grid] returns fewer than [n] rectangles. *)
Lemma auto_grid_length_saturated :
  ~ (exists cells, auto_grid split_model area100 4294836226 0 = Some cells /\
       Z.of_nat (length cells) = 4294836226).
Proof.
  intros [cells [E L]].
  assert (Hsat : Z.of_nat (length cells) = u16_max * u16_max).
  { apply (auto_grid_length_sat split_model area100 4294836226 0);
      [unfold rect_wf, area100; cbn; lia|lia|unfold u16_max; lia
      |unfold rect_size, isize_max; lia|exact E]. }
  rewrite L in Hsat. unfold u16_max in Hsat. lia.
Qed.

(** C2: for every well-formed area, spacing and [n >= 1], every rectangle
    returned by [auto_grid] lies within the area. *)
Theorem auto_grid_within
    (split : Direction -> list Constraint -> Z -> Rect -> list Rect)
    `{SplitContract split} (a : Rect) (n s : Z) (cells : list Rect) :
  rect_wf a -> 0 <= s -> 1 <= n -> auto_grid split a n s = Some cells ->
  forall c, In c cells -> within c a.
Proof.
  intros Ha Hs Hn E c Hc.
  destruct (Z.leb_spec (rect_size * n) isize_max) as [Hcap|Hcap];
    [|rewrite auto_grid_cap_panics in E by lia; discriminate].
  rewrite auto_grid_cells in E by assumption. injection E as <-.
  apply in_firstn in Hc. unfold generated_cells in Hc.
  apply in_concat in Hc as [l [Hl Hc]].
  apply in_map_iff in Hl as [band [<- Hb]].
  assert (Wb : within band a /\ rect_wf band) by (apply (split_within _ _ _ _ _ Ha Hs Hb)).
  destruct Wb as [Wb Fb].
  apply (within_trans c band a); [|exact Wb].
  apply (split_within _ _ _ _ _ Fb Hs Hc).
Qed.

(** C3: for [1 <= n <= 65535 * 65535], the grid has [cols = ceil(sqrt n)]
    (that is, [(cols-1)^2 < n <= cols^2]) and [rows = ceil(n / cols)] (that
    is, [cols * (rows-1) < n <= cols * rows]), so [cols * rows >= n]; and
    [n = 1, 9, 6] give [1x1], [3x3] and [3] columns by [2] rows. *)
Theorem grid_dims_spec (n : Z) :
  1 <= n <= u16_max * u16_max ->
  let '(cols, rows) := grid_dims n in
  1 <= cols /\ (cols - 1) * (cols - 1) < n <= cols * cols /\
  cols * (rows - 1) < n <= cols * rows /\ n <= cols * rows /\
  grid_dims 1 = (1, 1) /\ grid_dims 9 = (3, 3) /\ grid_dims 6 = (3, 2).
Proof.
  intros Hn. unfold grid_dims at 1.
  rewrite (proj1 (grid_rows_in_range n Hn)), grid_cols_in_range by assumption.
  pose proof (ceil_sqrt_pos n ltac:(lia)).
  pose proof (ceil_sqrt_spec n ltac:(lia)).
  pose proof (ceil_div_spec n (ceil_sqrt n) ltac:(lia)).
  repeat split; try lia; vm_compute; reflexivity.
Qed.

(** C4: [auto_grid area 1 spacing] is the one rectangle [area], whatever
    the spacing (with the splitter of the spec). *)
Theorem auto_grid_one (a : Rect) (s : Z) :
  auto_grid split_model a 1 s = Some [a].
Proof.
  unfold auto_grid. change (grid_rows 1) with 1. change (grid_cols 1) with 1.
  change (repeat (Ratio 1 1) (Z.to_nat 1)) with [Ratio 1 1].
  rewrite split_model_single. cbn -[split_model].
  change (seq 0 (Pos.to_nat 1)) with [0%nat]. cbn [rows_loop nth_error].
  rewrite split_model_single. reflexivity.
Qed.

(** C5: on the area [(0, 0, 100, 100)] with [n = 4] and spacing [0],
    [auto_grid] returns four [50 x 50] rectangles at [(0,0)], [(50,0)],
    [(0,50)] and [(50,50)], in that order (with the splitter of the spec). *)
Theorem auto_grid_four_cells :
  auto_grid split_model area100 4 0 =
  Some [mkRect 0 0 50 50; mkRect 50 0 50 50; mkRect 0 50 50 50; mkRect 50 50 50 50].
Proof. vm_compute. reflexivity. Qed.

(** C8: for [n >= 1] (below the allocation limit), [auto_grid] returns the
    first [n] of the [cols * rows] cells generated row by row, left to
    right; for [n = 7] the grid is [3 x 3] and the result is the first [7]
    of the [9] generated cells. *)
Theorem auto_grid_truncates
    (split : Direction -> list Constraint -> Z -> Rect -> list Rect)
    `{SplitContract split} (a : Rect) (n s : Z) :
  rect_wf a -> 0 <= s -> 1 <= n -> rect_size * n <= isize_max ->
  auto_grid split a n s = Some (firstn (Z.to_nat n) (generated_cells split a n s)) /\
  length (generated_cells split a n s) = Z.to_nat (grid_cols n * grid_rows n) /\
  grid_dims 7 = (3, 3) /\
  auto_grid split a 7 s = Some (firstn 7 (generated_cells split a 7 s)) /\
  length (generated_cells split a 7 s) = 9%nat.
Proof.
  intros Ha Hs Hn Hcap.
  split; [apply auto_grid_cells; assumption|].
  split.
  { rewrite generated_cells_length by assumption.
    pose proof (grid_cols_bounds n Hn). pose proof (grid_rows_bounds n Hn).
    rewrite Z2Nat.inj_mul by lia. apply Nat.mul_comm. }
  split; [vm_compute; reflexivity|].
  split.
  - rewrite auto_grid_cells by (try assumption; unfold rect_size, isize_max; lia).
    reflexivity.
  - rewrite generated_cells_length by assumption. vm_compute. reflexivity.
Qed.

(** C9: [auto_grid] is a function of its inputs: two calls with the same
    area, count and spacing return the same result. *)
Theorem auto_grid_deterministic
    (split : Direction -> list Constraint -> Z -> Rect -> list Rect)
    (a : Rect) (n s : Z) (r1 r2 : option (list Rect)) :
  auto_grid split a n s = r1 -> auto_grid split a n s = r2 -> r1 = r2.
Proof. intros <- <-. reflexivity. Qed.

(** C10: for [1 <= n <= 65535 * 65535], both grid dimensions are at least
    [1] (no [Ratio] with a zero denominator), the vertical split yields
    exactly [rows] bands (every [row_areas[r]] with [r < rows] is in
    bounds), and [auto_grid] does not panic. *)
Theorem auto_grid_no_panic
    (split : Direction -> list Constraint -> Z -> Rect -> list Rect)
    `{SplitContract split} (a : Rect) (n s : Z) :
  rect_wf a -> 0 <= s -> 1 <= n <= u16_max * u16_max ->
  1 <= grid_cols n /\ 1 <= grid_rows n /\
  length (split Vertical (row_constraints n) s a) = Z.to_nat (grid_rows n) /\
  auto_grid split a n s <> None.
Proof.
  intros Ha Hs Hn.
  pose proof (grid_cols_bounds n ltac:(lia)). pose proof (grid_rows_bounds n ltac:(lia)).
  split; [lia|]. split; [lia|].
  split; [apply row_areas_length; assumption|].
  rewrite auto_grid_cells; try assumption; [discriminate|lia|].
  apply u16_grid_fits_capacity. lia.
Qed.

(** C6 (amended): for every well-formed area, spacing and [n], two
    consecutive output cells on the same row have the same [y]; across a
    row boundary the next cell starts at or below the bottom edge of the
    previous one ([y] does not decrease, with equality possible when the
    bands are empty). *)
Theorem auto_grid_row_major
    (split : Direction -> list Constraint -> Z -> Rect -> list Rect)
    `{SplitContract split} (a : Rect) (n s : Z) (cells : list Rect) :
  rect_wf a -> 0 <= s -> 0 <= n -> auto_grid split a n s = Some cells ->
  forall i, (S i < length cells)%nat ->
  (same_row (grid_cols n) i (S i) ->
     y (nth i cells dflt_rect) = y (nth (S i) cells dflt_rect)) /\
  (~ same_row (grid_cols n) i (S i) ->
     y (nth i cells dflt_rect) + height (nth i cells dflt_rect) <=
     y (nth (S i) cells dflt_rect)).
Proof.
  intros Ha Hs Hn E i Hi.
  destruct (auto_grid_nth split a n s cells i Ha Hs Hn E ltac:(lia))
    as (HC & _ & _ & _ & _).
  destruct (auto_grid_cell_in_band split a n s cells i Ha Hs Hn E ltac:(lia))
    as (W1 & N1 & Y1 & H1).
  destruct (auto_grid_cell_in_band split a n s cells (S i) Ha Hs Hn E Hi)
    as (W2 & N2 & Y2 & H2).
  unfold same_row.
  rewrite Y1, Y2, H1.
  destruct (succ_div_mod (Z.to_nat (grid_cols n)) i HC)
    as [(Eq & _ & _)|(Eq & _ & _)]; rewrite Eq in *.
  - split; [reflexivity|intros []; reflexivity].
  - split; [lia|intros _].
    apply (split_ordered Vertical (row_constraints n) s a
             (i / Z.to_nat (grid_cols n))); assumption.
Qed.

(** C6 counterexample: on an area of height [0] with [n = 3], cells [1]
    and [2] are on different rows of the [2 x 2] grid and both have
    [y = 0], so [y] does not strictly increase across the row boundary. *)
Lemma auto_grid_row_major_flat :
  ~ (exists cells, auto_grid split_model (mkRect 0 0 100 0) 3 0 = Some cells /\
       row_major_strict (grid_cols 3) cells).
Proof.
  intros [cells [E Hrm]].
  vm_compute in E. injection E as <-.
  destruct (Hrm 1%nat ltac:(cbn; lia)) as [_ Hlt].
  assert (Hnot : ~ same_row (grid_cols 3) 1 2) by (vm_compute; discriminate).
  specialize (Hlt Hnot). vm_compute in Hlt. discriminate.
Qed.



(** * Witnesses: the claims' theorems at concrete inputs *)

Lemma area100_wf : rect_wf area100.
Proof. unfold rect_wf, area100; cbn; lia. Qed.

Lemma auto_grid_length_witness :
  rect_wf area100 /\ 0 <= 0 /\ 0 <= 4 <= u16_max * u16_max /\
  exists cells, auto_grid split_model area100 4 0 = Some cells /\
    Z.of_nat (length cells) = 4 /\ (cells = [] <-> 4 = 0).
Proof.
  split; [exact area100_wf|]. split; [lia|]. split; [unfold u16_max; lia|].
  apply (auto_grid_length split_model area100 4 0);
    [exact area100_wf|lia|unfold u16_max; lia].
Defined.

Lemma auto_grid_within_witness :
  auto_grid split_model area100 4 0 = Some four_cells /\
  forall c, In c four_cells -> within c area100.
Proof.
  split; [vm_compute; reflexivity|].
  apply (auto_grid_within split_model area100 4 0);
    [exact area100_wf|lia|lia|vm_compute; reflexivity].
Defined.

Lemma grid_dims_spec_witness :
  1 <= 7 <= u16_max * u16_max /\
  let '(cols, rows) := grid_dims 7 in
  1 <= cols /\ (cols - 1) * (cols - 1) < 7 <= cols * cols /\
  cols * (rows - 1) < 7 <= cols * rows /\ 7 <= cols * rows /\
  grid_dims 1 = (1, 1) /\ grid_dims 9 = (3, 3) /\ grid_dims 6 = (3, 2).
Proof.
  split; [unfold u16_max; lia|].
  apply (grid_dims_spec 7). unfold u16_max; lia.
Defined.

Lemma auto_grid_row_major_witness :
  auto_grid split_model area100 6 0 =
    Some [mkRect 0 0 34 50; mkRect 34 0 33 50; mkRect 67 0 33 50;
          mkRect 0 50 34 50; mkRect 34 50 33 50; mkRect 67 50 33 50] /\
  (same_row (grid_cols 6) 2 3 -> y (mkRect 67 0 33 50) = y (mkRect 0 50 34 50)) /\
  (~ same_row (grid_cols 6) 2 3 ->
     y (mkRect 67 0 33 50) + height (mkRect 67 0 33 50) <= y (mkRect 0 50 34 50)).
Proof.
  assert (E : auto_grid split_model area100 6 0 =
    Some [mkRect 0 0 34 50; mkRect 34 0 33 50; mkRect 67 0 33 50;
          mkRect 0 50 34 50; mkRect 34 50 33 50; mkRect 67 50 33 50])
    by (vm_compute; reflexivity).
  split; [exact E|].
  exact (auto_grid_row_major split_model area100 6 0 _ area100_wf
           ltac:(lia) ltac:(lia) E 2 ltac:(cbn; lia)).
Defined.


Lemma auto_grid_truncates_witness :
  auto_grid split_model area100 7 1 =
    Some (firstn 7 (generated_cells split_model area100 7 1)) /\
  length (generated_cells split_model area100 7 1) = 9%nat.
Proof.
  destruct (auto_grid_truncates split_model area100 7 1 area100_wf ltac:(lia)
              ltac:(lia) ltac:(unfold rect_size, isize_max; lia))
    as (E & _ & _ & _ & L).
  split; [exact E|exact L].
Defined.

Lemma auto_grid_deterministic_witness :
  Some four_cells = Some four_cells.
Proof.
  apply (auto_grid_deterministic split_model area100 4 0);
    vm_compute; reflexivity.
Defined.

Lemma auto_grid_no_panic_witness :
  1 <= grid_cols 9 /\ 1 <= grid_rows 9 /\
  length (split_model Vertical (row_constraints 9) 1 area100) = Z.to_nat (grid_rows 9) /\
  auto_grid split_model area100 9 1 <> None.
Proof.
  apply (auto_grid_no_panic split_model area100 9 1);
    [exact area100_wf|lia|unfold u16_max; lia].
Defined.

(** * Further properties of [auto_grid] *)

(** X1: for output cells [i < j] on one grid row, cell [i] ends at or
    before the left edge of cell [j]; on different rows, cell [i] ends at
    or above the top edge of cell [j]. *)
Theorem auto_grid_cells_ordered
    (split : Direction -> list Constraint -> Z -> Rect -> list Rect)
    `{SplitContract split} (a : Rect) (n s : Z) (cells : list Rect) :
  rect_wf a -> 0 <= s -> 0 <= n -> auto_grid split a n s = Some cells ->
  forall i j, (i < j)%nat -> (j < length cells)%nat ->
  (same_row (grid_cols n) i j ->
     x (nth i cells dflt_rect) + width (nth i cells dflt_rect) <=
     x (nth j cells dflt_rect)) /\
  (~ same_row (grid_cols n) i j ->
     y (nth i cells dflt_rect) + height (nth i cells dflt_rect) <=
     y (nth j cells dflt_rect)).
Proof.
  intros Ha Hs Hn E i j Hij Hj.
  exact (auto_grid_cells_order_aux split a n s cells i j Ha Hs Hn E Hij Hj).
Qed.

(** X2: no two distinct output cells overlap. *)
Theorem auto_grid_cells_disjoint
    (split : Direction -> list Constraint -> Z -> Rect -> list Rect)
    `{SplitContract split} (a : Rect) (n s : Z) (cells : list Rect) :
  rect_wf a -> 0 <= s -> 0 <= n -> auto_grid split a n s = Some cells ->
  forall i j, (i < length cells)%nat -> (j < length cells)%nat -> i <> j ->
  disjoint (nth i cells dflt_rect) (nth j cells dflt_rect).
Proof.
  intros Ha Hs Hn E i j Hi Hj Hne. unfold disjoint.
  destruct (Nat.lt_gt_cases i j) as [[Hlt|Hgt] _]; [exact Hne| |].
  - destruct (auto_grid_cells_order_aux split a n s cells i j Ha Hs Hn E Hlt Hj)
      as [Hr Hc].
    destruct (Nat.eq_dec (i / Z.to_nat (grid_cols n)) (j / Z.to_nat (grid_cols n)))
      as [Eq|Neq].
    + left. exact (Hr Eq).
    + right. right. left. exact (Hc Neq).
  - destruct (auto_grid_cells_order_aux split a n s cells j i Ha Hs Hn E Hgt Hi)
      as [Hr Hc].
    destruct (Nat.eq_dec (j / Z.to_nat (grid_cols n)) (i / Z.to_nat (grid_cols n)))
      as [Eq|Neq].
    + right. left. exact (Hr Eq).
    + right. right. right. exact (Hc Neq).
Qed.


(** X4: two counts with the same grid shape give nested results: the
    output for the smaller count is a prefix of the output for the larger. *)
Theorem auto_grid_prefix
    (split : Direction -> list Constraint -> Z -> Rect -> list Rect)
    `{SplitContract split} (a : Rect) (n m s : Z) :
  rect_wf a -> 0 <= s -> 1 <= n <= m -> rect_size * m <= isize_max ->
  grid_dims n = grid_dims m ->
  auto_grid split a n s = option_map (firstn (Z.to_nat n)) (auto_grid split a m s).
Proof.
  intros Ha Hs Hnm Hcap Hd.
  unfold grid_dims in Hd. injection Hd as Hc Hr.
  rewrite (auto_grid_cells split a n s), (auto_grid_cells split a m s)
    by (try assumption; unfold rect_size in *; lia).
  cbn [option_map]. f_equal.
  rewrite firstn_firstn.
  replace (Nat.min (Z.to_nat n) (Z.to_nat m)) with (Z.to_nat n) by lia.
  unfold generated_cells, row_constraints, col_constraints.
  rewrite Hc, Hr. reflexivity.
Qed.

(** X5: for [1 <= n <= 65535 * 65535], every row band but the last is
    filled with [cols] cells and the last row band holds at least one:
    position [(q, r)] of the grid is in the output when [q] is not the last
    row, or when [r = 0]. *)
Theorem auto_grid_full_rows
    (split : Direction -> list Constraint -> Z -> Rect -> list Rect)
    `{SplitContract split} (a : Rect) (n s : Z) (cells : list Rect) :
  rect_wf a -> 0 <= s -> 1 <= n <= u16_max * u16_max ->
  auto_grid split a n s = Some cells ->
  forall q r, (q < Z.to_nat (grid_rows n))%nat -> (r < Z.to_nat (grid_cols n))%nat ->
  (S q < Z.to_nat (grid_rows n) \/ r = 0)%nat ->
  (q * Z.to_nat (grid_cols n) + r < length cells)%nat.
Proof.
  intros Ha Hs Hn E q r Hq Hr Hqr.
  rewrite (auto_grid_length_eq split a n s cells) by (assumption || lia).
  pose proof (proj1 (grid_rows_in_range n Hn)) as ER.
  pose proof (grid_cols_in_range n Hn) as EC.
  pose proof (ceil_sqrt_pos n ltac:(lia)).
  pose proof (ceil_div_spec n (ceil_sqrt n) ltac:(lia)) as [Lo Hi].
  rewrite <- ER, <- EC in Lo, Hi.
  pose proof (grid_cols_bounds n ltac:(lia)).
  pose proof (grid_rows_bounds n ltac:(lia)).
  set (C := grid_cols n) in *. set (R := grid_rows n) in *.
  assert (Qz : Z.of_nat q < R) by lia.
  assert (Rz : Z.of_nat r < C) by lia.
  assert (Hz : Z.of_nat q * C + Z.of_nat r < n).
  { destruct Hqr as [Hq1|Hr0].
    - assert (Z.of_nat q + 1 < R) by lia. nia.
    - subst r. nia. }
  assert (Hg : Z.of_nat q * C + Z.of_nat r < R * C) by nia.
  assert (E1 : Z.of_nat (q * Z.to_nat C + r) = Z.of_nat q * C + Z.of_nat r).
  { rewrite Nat2Z.inj_add, Nat2Z.inj_mul, Z2Nat.id by lia. reflexivity. }
  assert (E2 : Z.of_nat (Z.to_nat R * Z.to_nat C) = R * C).
  { rewrite Nat2Z.inj_mul, !Z2Nat.id by lia. reflexivity. }
  lia.
Qed.

(** X6: with the splitter of the spec, vertically adjacent output cells
    (cell [i] and cell [i + cols]) have the same [x] and the same width:
    the columns line up across rows. *)
Theorem auto_grid_columns_aligned (a : Rect) (n s : Z) (cells : list Rect) :
  rect_wf a -> 0 <= s -> 0 <= n -> auto_grid split_model a n s = Some cells ->
  forall i, (i + Z.to_nat (grid_cols n) < length cells)%nat ->
  x (nth i cells dflt_rect) = x (nth (i + Z.to_nat (grid_cols n)) cells dflt_rect) /\
  width (nth i cells dflt_rect) =
  width (nth (i + Z.to_nat (grid_cols n)) cells dflt_rect).
Proof.
  intros Ha Hs Hn E i Hi.
  destruct (auto_grid_model_cell a n s cells i Ha Hs Hn E ltac:(lia))
    as (HC & _ & _ & X1 & W1 & _).
  destruct (auto_grid_model_cell a n s cells (i + Z.to_nat (grid_cols n)) Ha Hs Hn E Hi)
    as (_ & _ & _ & X2 & W2 & _).
  rewrite X1, W1, X2, W2.
  set (C := Z.to_nat (grid_cols n)) in *.
  pose proof (Nat.div_mod_eq i C) as Ei.
  pose proof (Nat.mod_upper_bound i C ltac:(lia)) as B.
  assert (Em : ((i + C) mod C = i mod C)%nat).
  { symmetry. apply (Nat.mod_unique _ _ (S (i / C))); lia. }
  rewrite Em. split; reflexivity.
Qed.

(** X7: for every count [n >= 1] (the whole [usize] range included), the
    only panic of [auto_grid] is the capacity overflow of
    [Vec::with_capacity(n)], which happens exactly when
    [8 * n > isize::MAX]; memory exhaustion is not modelled. *)
Theorem auto_grid_panics_iff_capacity
    (split : Direction -> list Constraint -> Z -> Rect -> list Rect)
    `{SplitContract split} (a : Rect) (n s : Z) :
  rect_wf a -> 0 <= s -> 1 <= n ->
  (auto_grid split a n s = None <-> isize_max < rect_size * n).
Proof.
  intros Ha Hs Hn. split.
  - intros E.
    destruct (Z.ltb_spec isize_max (rect_size * n)) as [Hlt|Hge]; [exact Hlt|].
    rewrite auto_grid_cells in E by assumption. discriminate.
  - intros Hlt. apply auto_grid_cap_panics; assumption.
Qed.

(** * Witnesses of the further properties *)

Lemma six_cells_eq : auto_grid split_model area100 6 0 = Some six_cells.
Proof. vm_compute. reflexivity. Qed.

Lemma auto_grid_cells_ordered_witness :
  auto_grid split_model area100 6 0 = Some six_cells /\
  (same_row (grid_cols 6) 0 4 ->
     x (nth 0 six_cells dflt_rect) + width (nth 0 six_cells dflt_rect) <=
     x (nth 4 six_cells dflt_rect)) /\
  (~ same_row (grid_cols 6) 0 4 ->
     y (nth 0 six_cells dflt_rect) + height (nth 0 six_cells dflt_rect) <=
     y (nth 4 six_cells dflt_rect)).
Proof.
  split; [exact six_cells_eq|].
  exact (auto_grid_cells_ordered split_model area100 6 0 six_cells area100_wf
           ltac:(lia) ltac:(lia) six_cells_eq 0 4 ltac:(lia) ltac:(cbn; lia)).
Defined.

Lemma auto_grid_cells_disjoint_witness :
  auto_grid split_model area100 6 0 = Some six_cells /\
  disjoint (nth 1 six_cells dflt_rect) (nth 3 six_cells dflt_rect).
Proof.
  split; [exact six_cells_eq|].
  exact (auto_grid_cells_disjoint split_model area100 6 0 six_cells area100_wf
           ltac:(lia) ltac:(lia) six_cells_eq 1 3 ltac:(cbn; lia) ltac:(cbn; lia)
           ltac:(discriminate)).
Defined.


Lemma auto_grid_prefix_witness :
  grid_dims 7 = grid_dims 9 /\
  auto_grid split_model area100 7 1 =
  option_map (firstn (Z.to_nat 7)) (auto_grid split_model area100 9 1).
Proof.
  assert (Hd : grid_dims 7 = grid_dims 9) by (vm_compute; reflexivity).
  split; [exact Hd|].
  apply (auto_grid_prefix split_model area100 7 9 1);
    [exact area100_wf|lia|lia|unfold rect_size, isize_max; lia|exact Hd].
Defined.

Lemma auto_grid_full_rows_witness :
  auto_grid split_model area100 7 0 =
    Some (firstn 7 (generated_cells split_model area100 7 0)) /\
  (2 * Z.to_nat (grid_cols 7) + 0 <
   length (firstn 7 (generated_cells split_model area100 7 0)))%nat.
Proof.
  assert (E : auto_grid split_model area100 7 0 =
              Some (firstn 7 (generated_cells split_model area100 7 0)))
    by (vm_compute; reflexivity).
  split; [exact E|].
  apply (auto_grid_full_rows split_model area100 7 0 _ area100_wf ltac:(lia)
           ltac:(unfold u16_max; lia) E 2 0);
    vm_compute; auto.
Defined.

Lemma auto_grid_columns_aligned_witness :
  auto_grid split_model area100 6 0 = Some six_cells /\
  x (nth 1 six_cells dflt_rect) = x (nth (1 + Z.to_nat (grid_cols 6)) six_cells dflt_rect) /\
  width (nth 1 six_cells dflt_rect) =
  width (nth (1 + Z.to_nat (grid_cols 6)) six_cells dflt_rect).
Proof.
  split; [exact six_cells_eq|].
  apply (auto_grid_columns_aligned area100 6 0 six_cells area100_wf ltac:(lia)
           ltac:(lia) six_cells_eq 1).
  vm_compute. auto.
Defined.

Lemma auto_grid_panics_iff_capacity_witness :
  (auto_grid split_model area100 (2 ^ 61) 0 = None <->
   isize_max < rect_size * 2 ^ 61) /\
  (auto_grid split_model area100 9 0 = None <-> isize_max < rect_size * 9).
Proof.
  split.
  - apply (auto_grid_panics_iff_capacity split_model area100 (2 ^ 61) 0);
      [exact area100_wf|lia|lia].
  - apply (auto_grid_panics_iff_capacity split_model area100 9 0);
      [exact area100_wf|lia|lia].
Defined.
